(** * bridge_sim: the session registry and the broadcast relay

    A shallow embedding of [bridge_sim.py]: the two module globals
    ([VEHICLES] and [users]), the two Socket.IO handlers ([handle_join] and
    [handle_power]) and the event loop that calls them.  Handlers are
    written in a small state-and-exception monad whose state is the pair
    of module globals and whose log is the list of [emit] calls made.
    The page route [index] touches neither global and emits nothing; it is
    not part of the model. *)

From stdpp Require Import gmap strings list fin_maps.

Set Warnings "-register-all,-clear-no-such-hyp".

(** ** Python values *)

(** Keys of a Python [dict].  Python compares and hashes [True] like [1]
    and [False] like [0], so a boolean key and the equal integer key name
    the same slot: both are [KInt].  Floating-point numbers are outside
    this model. *)
Inductive pykey :=
| KNone
| KInt (z : Z)
| KStr (s : string).

#[global] Instance pykey_eq_dec : EqDecision pykey.
Proof. solve_decision. Defined.

Definition pykey_enc (k : pykey) : unit + (Z + string) :=
  match k with
  | KNone => inl tt
  | KInt z => inr (inl z)
  | KStr s => inr (inr s)
  end.

Definition pykey_dec (x : unit + (Z + string)) : pykey :=
  match x with
  | inl _ => KNone
  | inr (inl z) => KInt z
  | inr (inr s) => KStr s
  end.

#[global] Instance pykey_countable : Countable pykey.
Proof. apply (inj_countable' pykey_enc pykey_dec). by intros []. Defined.

(** The values a decoded Socket.IO payload can hold, and the values the
    handlers build from them.  A decoded JSON object is a [PDict] all of
    whose keys are [KStr].  Binary attachments (Python [bytes]) are
    outside this model, like floating-point numbers. *)
Inductive pyval :=
| PNone
| PBool (b : bool)
| PInt (z : Z)
| PStr (s : string)
| PList (l : list pyval)
| PDict (m : gmap pykey pyval).

(** [hash(v)]: lists and dicts are unhashable. *)
Definition py_hash (v : pyval) : option pykey :=
  match v with
  | PNone => Some KNone
  | PBool b => Some (KInt (Z.b2z b))
  | PInt z => Some (KInt z)
  | PStr s => Some (KStr s)
  | PList _ | PDict _ => None
  end.

Inductive type_error :=
| NotSubscriptable   (* 'int' object is not subscriptable, ... *)
| BadIndex           (* string / list indices must be integers *)
| Unhashable         (* unhashable type: 'list' / 'dict' *)
| BadArity.          (* handler called with the wrong number of arguments *)

Inductive exn :=
| KeyError (k : string)
| TypeError (why : type_error).

(** ** Module globals *)

Record globals := Globals {
  users : gmap pykey pyval;
  VEHICLES : pyval
}.

(** The literal bound to [VEHICLES] when the module is loaded. *)
Definition VEHICLES_literal : pyval :=
  PDict {[ KStr "millennium_falcon" :=
    PDict (<[KStr "weapons" :=
               PList [PStr "Quad Laser Cannons"; PStr "Concussion Missiles"]]>
          (<[KStr "shields" := PInt 100]>
          (<[KStr "type" := PStr "Freighter"]>
          (<[KStr "name" := PStr "Millennium Falcon"]> ∅)))) ]}.

(** The globals right after import: [users = {}]. *)
Definition module_init : globals :=
  {| users := ∅; VEHICLES := VEHICLES_literal |}.

(** ** The handler monad *)

(** One call of flask_socketio's [emit(event, data, broadcast=...)]. *)
Record emission := Emission {
  em_event : string;
  em_data : pyval;
  em_broadcast : bool
}.

Inductive result (A : Type) :=
| Returned (a : A)
| Raised (e : exn).
Arguments Returned {A} a.
Arguments Raised {A} e.

(** A computation reads and writes the globals, logs its emits, and either
    returns or raises.  What was written and emitted before a raise stays
    written and emitted. *)
Definition py (A : Type) : Type := globals → result A * globals * list emission.

#[global] Instance py_ret : MRet py := λ A a g, (Returned a, g, []).

#[global] Instance py_bind : MBind py := λ A B f m g,
  match m g with
  | (Returned a, g1, out1) =>
      match f a g1 with
      | (r, g2, out2) => (r, g2, out1 ++ out2)
      end
  | (Raised e, g1, out1) => (Raised e, g1, out1)
  end.

Definition raise {A} (e : exn) : py A := λ g, (Raised e, g, []).

(** [obj[k]] with a string literal [k]. *)
Definition getitem (obj : pyval) (k : string) : py pyval :=
  match obj with
  | PDict m =>
      match m !! KStr k with
      | Some v => mret v
      | None => raise (KeyError k)
      end
  | PStr _ | PList _ => raise (TypeError BadIndex)
  | PNone | PBool _ | PInt _ => raise (TypeError NotSubscriptable)
  end.

(** [users[key] = value]. *)
Definition users_setitem (key value : pyval) : py unit := λ g,
  match py_hash key with
  | Some k => (Returned tt, {| users := <[k := value]> (users g); VEHICLES := VEHICLES g |}, [])
  | None => (Raised (TypeError Unhashable), g, [])
  end.

(** Reading the global [users] as a value. *)
Definition load_users : py pyval := λ g, (Returned (PDict (users g)), g, []).

(** [emit(event, data, broadcast=b)]: the packet is encoded when [emit] is
    called, so the emission holds the value [data] has at that moment.
    Encoding succeeds on every value of [pyval] (dict keys that are None,
    integers or strings are all accepted by the JSON encoder), so [emit]
    returns here; it could raise only on a [bytes] key, which [pyval] does
    not have. *)
Definition emit (event : string) (data : pyval) (broadcast : bool) : py unit :=
  λ g, (Returned tt, g, [Emission event data broadcast]).

(** ** The handlers *)

(** The dict display [{'station': station, 'name': name}]. *)
Definition user_record (station name : pyval) : pyval :=
  PDict (<[KStr "name" := name]> (<[KStr "station" := station]> ∅)).

(** [[
    @socketio.on('join')
    def handle_join(data):
        users[data['session_id']] = {
            'station': data['station'],
            'name': data['name']
        }
        emit('update_users', users, broadcast=True)
    ]]
    Python evaluates the right-hand side of the assignment first (the two
    lookups in the dict display, left to right), then the subscript of the
    target, then stores. *)
Definition handle_join (data : pyval) : py unit :=
  station ← getitem data "station";
  name ← getitem data "name";
  let record := user_record station name in
  key ← getitem data "session_id";
  users_setitem key record;;
  snapshot ← load_users;
  emit "update_users" snapshot true.

(** [[
    @socketio.on('power_update')
    def handle_power(data):
        emit('power_update', data, broadcast=True)
    ]] *)
Definition handle_power (data : pyval) : py unit :=
  emit "power_update" data true.

(** ** The event loop *)

(** An inbound Socket.IO event: the connection it came from, its name and
    its arguments. *)
Record inbound := Inbound {
  in_sender : string;
  in_event : string;
  in_args : list pyval
}.

(** The handlers registered with [@socketio.on]. *)
Definition handler_of (event : string) : option (pyval → py unit) :=
  if decide (event = "join") then Some handle_join
  else if decide (event = "power_update") then Some handle_power
  else None.

(** The framework applies the handler to the event's argument list; both
    handlers take exactly one positional argument. *)
Definition call (h : pyval → py unit) (args : list pyval) : py unit :=
  match args with
  | [data] => h data
  | _ => raise (TypeError BadArity)
  end.

(** What the loop records for one inbound event: how the handler ended
    ([None] when no handler is registered for the event) and what it
    emitted. *)
Record handled := Handled {
  h_sender : string;
  h_result : option (result unit);
  h_sent : list emission
}.

(** One event is handled to completion; an exception ends the handler and
    is left to the framework, the globals stay as the handler left them. *)
Definition dispatch (ev : inbound) (g : globals) : globals * handled :=
  match handler_of (in_event ev) with
  | Some h =>
      match call h (in_args ev) g with
      | (r, g', out) => (g', Handled (in_sender ev) (Some r) out)
      end
  | None => (g, Handled (in_sender ev) None [])
  end.

Fixpoint serve (evs : list inbound) (g : globals) : globals * list handled :=
  match evs with
  | [] => (g, [])
  | ev :: rest =>
      let '(g1, h) := dispatch ev g in
      let '(g2, hs) := serve rest g1 in
      (g2, h :: hs)
  end.

(** ** Delivery *)

(** Who receives an emission made while handling an event from [sender]:
    with [broadcast=True] (and [include_self] left at its default) every
    connected client, otherwise the sender alone. *)
Definition recipients (connected : gset string) (sender : string)
    (m : emission) : gset string :=
  if em_broadcast m then connected else {[ sender ]}.

(** The events addressed to client [c] by a handler run, as they were
    passed to [emit]: event names and payload values before the packet is
    encoded for the wire. *)
Definition inbox (connected : gset string) (sender : string)
    (out : list emission) (c : string) : list (string * pyval) :=
  (λ m, (em_event m, em_data m)) <$>
    filter (λ m, c ∈ recipients connected sender m) out.

(** ** Vocabulary of the statements *)

(** The three values a join payload is expected to carry.  The session
    identifier is a string; station and name are stored as they come. *)
Record join_req := JoinReq {
  j_sid : string;
  j_station : pyval;
  j_name : pyval
}.

(** Payload [m] has the three expected keys, with these values (it may
    have other keys as well). *)
Definition carries (m : gmap pykey pyval) (j : join_req) : Prop :=
  m !! KStr "session_id" = Some (PStr (j_sid j)) ∧
  m !! KStr "station" = Some (j_station j) ∧
  m !! KStr "name" = Some (j_name j).

(** [ev] is a [join] event whose single argument is such a payload. *)
Definition is_join (ev : inbound) (j : join_req) : Prop :=
  in_event ev = "join" ∧ ∃ m, in_args ev = [PDict m] ∧ carries m j.

(** At least one of the three expected keys is absent from [m]. *)
Definition lacks_join_key (m : gmap pykey pyval) : Prop :=
  m !! KStr "station" = None ∨ m !! KStr "name" = None ∨
  m !! KStr "session_id" = None.

(** The record the registry holds for a request. *)
Definition record_of (j : join_req) : pyval :=
  user_record (j_station j) (j_name j).

(** The smallest payload carrying a request. *)
Definition payload_map (j : join_req) : gmap pykey pyval :=
  <[KStr "session_id" := PStr (j_sid j)]>
    (<[KStr "station" := j_station j]>
    (<[KStr "name" := j_name j]> ∅)).

Definition payload_of (j : join_req) : pyval := PDict (payload_map j).

Definition join_event (sender : string) (j : join_req) : inbound :=
  Inbound sender "join" [payload_of j].

Definition power_event (sender : string) (data : pyval) : inbound :=
  Inbound sender "power_update" [data].

(** How a handler run ended, what it left in the globals, what it sent. *)
Definition outcome {A} (r : result A * globals * list emission) : result A := r.1.1.
Definition globals_after {A} (r : result A * globals * list emission) : globals := r.1.2.
Definition sent {A} (r : result A * globals * list emission) : list emission := r.2.

(** [v] is a dict with exactly the two keys [station] and [name], bound
    to these two values. *)
Definition holds_station_name (v station name : pyval) : Prop :=
  ∃ r, v = PDict r ∧
       dom r = {[ KStr "station"; KStr "name" ]} ∧
       r !! KStr "station" = Some station ∧
       r !! KStr "name" = Some name.


(** The registry after storing the requests [jds], oldest first, into [u]. *)
Definition store_all (jds : list join_req) (u : gmap pykey pyval) :
    gmap pykey pyval :=
  foldl (λ reg j, <[KStr (j_sid j) := record_of j]> reg) u jds.

(** The globals with another value bound to [VEHICLES]. *)
Definition with_vehicles (v : pyval) (g : globals) : globals :=
  {| users := users g; VEHICLES := v |}.

(** The scenario of the specification: Han takes the helm, then Chewie
    joins engineering. *)
Definition han : join_req := JoinReq "s1" (PStr "helm") (PStr "Han").
Definition chewie : join_req := JoinReq "s2" (PStr "engineering") (PStr "Chewie").

Definition faults {A} (r : result A * globals * list emission) : Prop :=
  ∃ e, outcome r = Raised e.


(** [ev] is a [join] event whose payload is a dict with a hashable
    [session_id], and [k] is the registry key that value names. *)
Definition names_key (ev : inbound) (k : pykey) : Prop :=
  in_event ev = "join" ∧
  ∃ m sid, in_args ev = [PDict m] ∧
           m !! KStr "session_id" = Some sid ∧ py_hash sid = Some k.

(** The store a [join] event makes when its handler gets as far as the
    assignment: the key its [session_id] names and the record built from
    its [station] and [name]; [None] for every event that stores nothing. *)
Definition stores (ev : inbound) : option (pykey * pyval) :=
  if decide (in_event ev = "join") then
    match in_args ev with
    | [PDict m] =>
        station ← m !! KStr "station";
        name ← m !! KStr "name";
        sid ← m !! KStr "session_id";
        k ← py_hash sid;
        Some (k, user_record station name)
    | _ => None
    end
  else None.

(** Everything emitted during a run, oldest first. *)
Definition all_sent (log : list handled) : list emission :=
  mjoin (h_sent <$> log).

(** * Properties *)

(** ** One handler call *)

Section handlers.
Implicit Types (m : gmap pykey pyval) (g : globals) (data : pyval).

(** [handle_join] on a dict payload, case by case in the order in which
    Python evaluates the statement. *)
Lemma handle_join_dict m g :
  handle_join (PDict m) g =
    match m !! KStr "station" with
    | None => (Raised (KeyError "station"), g, [])
    | Some station =>
      match m !! KStr "name" with
      | None => (Raised (KeyError "name"), g, [])
      | Some name =>
        match m !! KStr "session_id" with
        | None => (Raised (KeyError "session_id"), g, [])
        | Some key =>
          match py_hash key with
          | None => (Raised (TypeError Unhashable), g, [])
          | Some k =>
              (Returned tt,
               Globals (<[k := user_record station name]> (users g)) (VEHICLES g),
               [Emission "update_users"
                  (PDict (<[k := user_record station name]> (users g))) true])
          end
        end
      end
    end.
Proof.
  unfold handle_join, getitem, mbind, py_bind.
  destruct (m !! KStr "station") as [station|]; [|done].
  destruct (m !! KStr "name") as [name|]; [|done].
  destruct (m !! KStr "session_id") as [key|]; [|done].
  cbv beta iota delta [mret py_ret users_setitem].
  by destruct (py_hash key).
Qed.

(** A payload that is not a dict fails at the first subscript. *)
Lemma handle_join_not_dict data g :
  (∀ m, data ≠ PDict m) →
  ∃ why, handle_join data g = (Raised (TypeError why), g, []).
Proof.
  intros Hnd. destruct data; try (by eexists); by destruct (Hnd m).
Qed.

Lemma handle_join_carries m j g :
  carries m j →
  handle_join (PDict m) g =
    (Returned tt,
     Globals (<[KStr (j_sid j) := record_of j]> (users g)) (VEHICLES g),
     [Emission "update_users"
        (PDict (<[KStr (j_sid j) := record_of j]> (users g))) true]).
Proof.
  intros (Hsid & Hst & Hnm). by rewrite handle_join_dict, Hst, Hnm, Hsid.
Qed.

(** The dict display has the two keys, with the values it was given. *)
Lemma user_record_holds station name :
  holds_station_name (user_record station name) station name.
Proof.
  eexists. split; [reflexivity|]. split; [|split].
  - rewrite !dom_insert_L, dom_empty_L. set_solver.
  - rewrite lookup_insert_ne by done. by rewrite lookup_insert_eq.
  - by rewrite lookup_insert_eq.
Qed.

Lemma handle_power_eq data g :
  handle_power data g = (Returned tt, g, [Emission "power_update" data true]).
Proof. done. Qed.

Lemma payload_map_carries j : carries (payload_map j) j.
Proof. done. Qed.

(** A session identifier that is a list or a dict cannot be a key: the
    store raises, after the three lookups and with nothing written. *)
Lemma handle_join_unhashable m g station name key :
  m !! KStr "station" = Some station →
  m !! KStr "name" = Some name →
  m !! KStr "session_id" = Some key →
  py_hash key = None →
  handle_join (PDict m) g = (Raised (TypeError Unhashable), g, []).
Proof. intros Hst Hnm Hsid Hk. by rewrite handle_join_dict, Hst, Hnm, Hsid, Hk. Qed.

(** On the payloads of this model, a run of [handle_join] either leaves
    the globals alone and emits nothing, or stores one entry and emits the
    registry it stored into. *)
Lemma handle_join_cases data g :
  (∃ e, handle_join data g = (Raised e, g, [])) ∨
  (∃ k v,
     handle_join data g =
       (Returned tt, Globals (<[k := v]> (users g)) (VEHICLES g),
        [Emission "update_users" (PDict (<[k := v]> (users g))) true])).
Proof.
  destruct data as [| | | | |m]; try (left; by eexists).
  rewrite handle_join_dict.
  repeat case_match; try (left; by eexists).
  right. by do 2 eexists.
Qed.

(** Neither handler looks at [VEHICLES]: running with another catalog
    gives the same run, with that catalog carried along. *)
Lemma handle_join_with_vehicles v data g :
  handle_join data (with_vehicles v g) =
    let '(r, g', out) := handle_join data g in (r, with_vehicles v g', out).
Proof.
  destruct data as [| | | | |m]; try done.
  rewrite !handle_join_dict. repeat case_match; by simplify_eq.
Qed.

Lemma handle_power_with_vehicles v data g :
  handle_power data (with_vehicles v g) =
    let '(r, g', out) := handle_power data g in (r, with_vehicles v g', out).
Proof. done. Qed.
End handlers.

(** ** The event loop *)

Section loop.
Implicit Types (ev : inbound) (evs : list inbound) (g : globals).

Lemma handler_of_join : handler_of "join" = Some handle_join.
Proof. done. Qed.

Lemma handler_of_power : handler_of "power_update" = Some handle_power.
Proof. done. Qed.

Lemma handler_of_cases name h :
  handler_of name = Some h →
  (name = "join" ∧ h = handle_join) ∨
  (name = "power_update" ∧ h = handle_power).
Proof.
  unfold handler_of. repeat case_decide; intros ?; simplify_eq; auto.
Qed.

Lemma dispatch_join ev j g :
  is_join ev j →
  dispatch ev g =
    (Globals (<[KStr (j_sid j) := record_of j]> (users g)) (VEHICLES g),
     Handled (in_sender ev) (Some (Returned tt))
       [Emission "update_users"
          (PDict (<[KStr (j_sid j) := record_of j]> (users g))) true]).
Proof.
  intros [Hname (m & Hargs & Hm)]. unfold dispatch.
  rewrite Hname, handler_of_join, Hargs. simpl.
  by rewrite (handle_join_carries m j g Hm).
Qed.

Lemma dispatch_power sender data g :
  dispatch (power_event sender data) g =
    (g, Handled sender (Some (Returned tt))
          [Emission "power_update" data true]).
Proof. done. Qed.

(** One event changes the globals by at most one store into [users]. *)
Lemma dispatch_cases ev g :
  (dispatch ev g).1 = g ∨
  ∃ k v, (dispatch ev g).1 = Globals (<[k := v]> (users g)) (VEHICLES g).
Proof.
  unfold dispatch. destruct (handler_of (in_event ev)) as [h|] eqn:Hh; [|by left].
  destruct (in_args ev) as [|data [|]]; try by left.
  simpl. apply handler_of_cases in Hh as [[_ ->]|[_ ->]]; [|by left].
  destruct (handle_join_cases data g) as [[e ->]|(k & v & ->)]; [by left|].
  right. by do 2 eexists.
Qed.

Lemma dispatch_with_vehicles v ev g :
  dispatch ev (with_vehicles v g) =
    (with_vehicles v (dispatch ev g).1, (dispatch ev g).2).
Proof.
  unfold dispatch. destruct (handler_of (in_event ev)) as [h|] eqn:Hh; [|done].
  destruct (in_args ev) as [|data [|]]; try done.
  simpl. apply handler_of_cases in Hh as [[_ ->]|[_ ->]]; [|done].
  rewrite handle_join_with_vehicles.
  by destruct (handle_join data g) as [[r g'] out].
Qed.

Lemma serve_cons ev evs g :
  serve (ev :: evs) g =
    ((serve evs (dispatch ev g).1).1,
     (dispatch ev g).2 :: (serve evs (dispatch ev g).1).2).
Proof.
  simpl. destruct (dispatch ev g) as [g1 h]. simpl.
  by destruct (serve evs g1).
Qed.

Lemma serve_app evs1 evs2 g :
  serve (evs1 ++ evs2) g =
    ((serve evs2 (serve evs1 g).1).1,
     (serve evs1 g).2 ++ (serve evs2 (serve evs1 g).1).2).
Proof.
  revert g. induction evs1 as [|ev evs1 IH]; intros g.
  - simpl. by destruct (serve evs2 g).
  - rewrite <-app_comm_cons, !serve_cons, IH. done.
Qed.

Lemma serve_with_vehicles v evs g :
  serve evs (with_vehicles v g) =
    (with_vehicles v (serve evs g).1, (serve evs g).2).
Proof.
  revert g. induction evs as [|ev evs IH]; intros g; [done|].
  rewrite !serve_cons, dispatch_with_vehicles. simpl. by rewrite IH.
Qed.

Lemma dispatch_vehicles ev g : VEHICLES (dispatch ev g).1 = VEHICLES g.
Proof. by destruct (dispatch_cases ev g) as [->|(k & v & ->)]. Qed.

Lemma dispatch_users_dom ev g : dom (users g) ⊆ dom (users (dispatch ev g).1).
Proof.
  destruct (dispatch_cases ev g) as [->|(k & v & ->)]; [done|].
  simpl. rewrite dom_insert_L. set_solver.
Qed.

Lemma serve_vehicles evs g : VEHICLES (serve evs g).1 = VEHICLES g.
Proof.
  revert g. induction evs as [|ev evs IH]; intros g; [done|].
  rewrite serve_cons. simpl. by rewrite IH, dispatch_vehicles.
Qed.

Lemma serve_users_dom evs g : dom (users g) ⊆ dom (users (serve evs g).1).
Proof.
  revert g. induction evs as [|ev evs IH]; intros g; [done|].
  rewrite serve_cons. simpl. etrans; [apply (dispatch_users_dom ev)|apply IH].
Qed.
End loop.

(** ** The registry after a run of joins *)

Section registry.
Implicit Types (evs : list inbound) (jds : list join_req) (g : globals).
Implicit Types (u : gmap pykey pyval).

#[local] Instance KStr_inj : Inj (=) (=) KStr.
Proof. by intros s1 s2 [= ->]. Qed.







(** A run of well-formed joins stores the requests in order. *)
Lemma serve_joins_globals evs jds g :
  Forall2 is_join evs jds →
  (serve evs g).1 = Globals (store_all jds (users g)) (VEHICLES g).
Proof.
  intros Hj. revert g.
  induction Hj as [|ev j evs jds Hev _ IH]; intros g; [by destruct g|].
  rewrite serve_cons. simpl. by rewrite IH, (dispatch_join ev j g Hev).
Qed.

End registry.

(** ** Delivery of a broadcast *)

Section delivery.
Implicit Types (connected : gset string) (sender c : string).

Lemma inbox_broadcast connected sender name data c :
  c ∈ connected →
  inbox connected sender [Emission name data true] c = [(name, data)].
Proof.
  intros Hc. unfold inbox. rewrite filter_cons, filter_nil.
  by rewrite decide_True.
Qed.

End delivery.

(** * The statements of the specification *)

(** C2.  A join whose payload has the keys [session_id], [station] and
    [name] first stores, under the session identifier, a dict with exactly
    the keys [station] and [name] bound to the payload's values, and then
    emits, as [update_users] with [broadcast=True], the whole registry as
    it is after that store; the emission is addressed to every connected
    client, the sender included.  In the scenario of the specification
    the first broadcast holds the entry of [s1] and the second the entries
    of [s1] and [s2]. *)
Theorem join_stores_then_broadcasts m j g (connected : gset string) sender :
  carries m j →
  sender ∈ connected →
  (∃ rec,
     holds_station_name rec (j_station j) (j_name j) ∧
     handle_join (PDict m) g =
       (Returned tt,
        Globals (<[KStr (j_sid j) := rec]> (users g)) (VEHICLES g),
        [Emission "update_users"
           (PDict (<[KStr (j_sid j) := rec]> (users g))) true])) ∧
  (∀ e, e ∈ sent (handle_join (PDict m) g) →
     recipients connected sender e = connected ∧
     sender ∈ recipients connected sender e) ∧
  h_sent <$> (serve [join_event "A" han; join_event "B" chewie] module_init).2 =
    [ [Emission "update_users"
         (PDict {[ KStr "s1" :=
                     PDict {[ KStr "station" := PStr "helm";
                              KStr "name" := PStr "Han" ]} ]}) true];
      [Emission "update_users"
         (PDict {[ KStr "s1" :=
                     PDict {[ KStr "station" := PStr "helm";
                              KStr "name" := PStr "Han" ]};
                   KStr "s2" :=
                     PDict {[ KStr "station" := PStr "engineering";
                              KStr "name" := PStr "Chewie" ]} ]}) true] ].
Proof.
  intros Hm Hsender. rewrite (handle_join_carries m j g Hm).
  split; [|split].
  - exists (user_record (j_station j) (j_name j)).
    split; [apply user_record_holds|done].
  - intros e He. apply list_elem_of_singleton in He as ->. by split.
  - vm_compute. reflexivity.
Qed.

Lemma join_stores_then_broadcasts_witness :
  carries (payload_map han) han ∧ "A" ∈ ({[ "A"; "B" ]} : gset string) ∧
  ∃ rec,
    holds_station_name rec (PStr "helm") (PStr "Han") ∧
    handle_join (payload_of han) module_init =
      (Returned tt,
       Globals (<[KStr "s1" := rec]> ∅) VEHICLES_literal,
       [Emission "update_users" (PDict (<[KStr "s1" := rec]> ∅)) true]).
Proof.
  assert (carries (payload_map han) han) as Hm by done.
  assert ("A" ∈ ({[ "A"; "B" ]} : gset string)) as HA by set_solver.
  split; [exact Hm|split; [exact HA|]].
  exact (proj1 (join_stores_then_broadcasts (payload_map han) han module_init
                  {[ "A"; "B" ]} "A" Hm HA)).
Defined.

(** C3.  From any registry, a join for session [s] followed by another
    join for the same [s] leaves the globals exactly as the second join
    alone does, and the second join does not change the number of
    entries. *)
Theorem rejoin_overwrites ev1 ev2 j1 j2 g :
  is_join ev1 j1 →
  is_join ev2 j2 →
  j_sid j1 = j_sid j2 →
  (serve [ev1; ev2] g).1 = (serve [ev2] g).1 ∧
  users (serve [ev1; ev2] g).1 !! KStr (j_sid j1) = Some (record_of j2) ∧
  size (users (serve [ev1; ev2] g).1) = size (users (serve [ev1] g).1).
Proof.
  intros H1 H2 Hsid.
  rewrite !serve_cons. simpl.
  rewrite (dispatch_join ev2 j2 _ H2), (dispatch_join ev2 j2 g H2),
    (dispatch_join ev1 j1 g H1). simpl. rewrite Hsid.
  split; [by rewrite insert_insert_eq|split].
  - by rewrite lookup_insert_eq.
  - apply map_size_insert_Some. by rewrite lookup_insert_eq.
Qed.

Lemma rejoin_overwrites_witness :
  let ev1 := join_event "A" han in
  let ev2 := join_event "A" (JoinReq "s1" (PStr "weapons") (PStr "Leia")) in
  (serve [ev1; ev2] module_init).1 = (serve [ev2] module_init).1 ∧
  size (users (serve [ev1; ev2] module_init).1) =
    size (users (serve [ev1] module_init).1).
Proof.
  intros ev1 ev2.
  assert (is_join ev1 han) as H1.
  { split; [done|]. exists (payload_map han). by split. }
  assert (is_join ev2 (JoinReq "s1" (PStr "weapons") (PStr "Leia"))) as H2.
  { split; [done|]. eexists. by split. }
  destruct (rejoin_overwrites ev1 ev2 _ _ module_init H1 H2 eq_refl)
    as (Hsame & _ & Hsize).
  by split.
Defined.

(** C4.  [handle_power] returns, leaves the globals alone and emits one
    event named [power_update], with [broadcast=True], whose payload is the
    inbound payload itself; every connected client, the sender included,
    receives exactly that event. *)
Theorem power_update_relayed_unchanged data g (connected : gset string) sender :
  handle_power data g = (Returned tt, g, [Emission "power_update" data true]) ∧
  dispatch (power_event sender data) g =
    (g, Handled sender (Some (Returned tt)) [Emission "power_update" data true]) ∧
  (sender ∈ connected →
   ∀ c, c ∈ connected →
     inbox connected sender (sent (handle_power data g)) c =
       [("power_update", data)]).
Proof.
  split; [done|split; [done|]].
  intros _ c Hc. by apply inbox_broadcast.
Qed.

Lemma power_update_relayed_unchanged_witness :
  "A" ∈ ({[ "A"; "B" ]} : gset string) ∧
  inbox {[ "A"; "B" ]} "A"
    (sent (handle_power (PDict {[ KStr "shields" := PInt 50 ]}) module_init)) "A" =
    [("power_update", PDict {[ KStr "shields" := PInt 50 ]})].
Proof.
  assert ("A" ∈ ({[ "A"; "B" ]} : gset string)) as HA by set_solver.
  split; [exact HA|].
  destruct (power_update_relayed_unchanged
              (PDict {[ KStr "shields" := PInt 50 ]}) module_init
              {[ "A"; "B" ]} "A") as (_ & _ & Hbox).
  exact (Hbox HA "A" HA).
Defined.



(** C5.  On a payload that has the three keys with a string session
    identifier (empty strings included) [handle_join] returns; on a payload
    that lacks one of the three keys it raises [KeyError] for a key that is
    absent.  So, among payloads whose session identifier, when present, is
    a string (or any other hashable value), the handler raises exactly
    when one of the three keys is absent. *)
Theorem join_faults_iff_key_missing m g :
  (∀ j, carries m j → outcome (handle_join (PDict m) g) = Returned tt) ∧
  (lacks_join_key m →
   ∃ k, k ∈ ["station"; "name"; "session_id"] ∧ m !! KStr k = None ∧
        outcome (handle_join (PDict m) g) = Raised (KeyError k)) ∧
  ((∀ v, m !! KStr "session_id" = Some v → is_Some (py_hash v)) →
   faults (handle_join (PDict m) g) ↔ lacks_join_key m).
Proof.
  assert (lacks_join_key m →
          ∃ k, k ∈ ["station"; "name"; "session_id"] ∧ m !! KStr k = None ∧
               outcome (handle_join (PDict m) g) = Raised (KeyError k)) as Hlack.
  { intros Hl. rewrite handle_join_dict.
    destruct (m !! KStr "station") as [st|] eqn:Hst;
      [|exists "station"; split; [set_solver|done]].
    destruct (m !! KStr "name") as [nm|] eqn:Hnm;
      [|exists "name"; split; [set_solver|done]].
    destruct (m !! KStr "session_id") as [sid|] eqn:Hsid;
      [|exists "session_id"; split; [set_solver|done]].
    destruct Hl as [?|[?|?]]; congruence. }
  split; [|split; [done|]].
  - intros j Hj. by rewrite (handle_join_carries m j g Hj).
  - intros Hstr. split.
    + intros [e He]. unfold lacks_join_key.
      destruct (m !! KStr "station") as [st|] eqn:Hst; [|by left].
      destruct (m !! KStr "name") as [nm|] eqn:Hnm; [|by right; left].
      destruct (m !! KStr "session_id") as [sid|] eqn:Hsid; [|by right; right].
      destruct (Hstr sid eq_refl) as [k Hk].
      rewrite handle_join_dict, Hst, Hnm, Hsid, Hk in He. done.
    + intros Hl. destruct (Hlack Hl) as (k & _ & _ & Hk). by exists (KeyError k).
Qed.

Lemma join_faults_iff_key_missing_witness :
  carries (payload_map (JoinReq "" (PStr "") (PStr ""))) (JoinReq "" (PStr "") (PStr "")) ∧
  outcome (handle_join (payload_of (JoinReq "" (PStr "") (PStr ""))) module_init) =
    Returned tt ∧
  lacks_join_key {[ KStr "session_id" := PStr "s1"; KStr "station" := PStr "helm" ]} ∧
  faults (handle_join
            (PDict {[ KStr "session_id" := PStr "s1"; KStr "station" := PStr "helm" ]})
            module_init).
Proof.
  assert (carries (payload_map (JoinReq "" (PStr "") (PStr "")))
            (JoinReq "" (PStr "") (PStr ""))) as Hc by done.
  assert (lacks_join_key
            {[ KStr "session_id" := PStr "s1"; KStr "station" := PStr "helm" ]}) as Hl.
  { right; left. reflexivity. }
  split; [exact Hc|split; [|split; [exact Hl|]]].
  - destruct (join_faults_iff_key_missing
                (payload_map (JoinReq "" (PStr "") (PStr ""))) module_init)
      as (Hok & _ & _).
    exact (Hok _ Hc).
  - destruct (join_faults_iff_key_missing
                {[ KStr "session_id" := PStr "s1"; KStr "station" := PStr "helm" ]}
                module_init) as (_ & _ & Hiff).
    apply Hiff; [|exact Hl].
    intros v Hv. vm_compute in Hv. injection Hv as <-. by eexists.
Defined.

(** C6.  What [handle_power] returns and emits does not depend on the
    registry: from any two states of the globals, the empty registry of a
    freshly loaded module included, the same payload gives the same
    outcome and the same emission, and the event loop records the same for
    a [power_update] event whatever its arguments. *)
Theorem power_update_ignores_registry data g1 g2 sender args :
  outcome (handle_power data g1) = outcome (handle_power data g2) ∧
  sent (handle_power data g1) = sent (handle_power data g2) ∧
  outcome (handle_power data g1) = outcome (handle_power data module_init) ∧
  sent (handle_power data g1) = sent (handle_power data module_init) ∧
  (dispatch (Inbound sender "power_update" args) g1).2 =
    (dispatch (Inbound sender "power_update" args) g2).2.
Proof.
  repeat split; try done.
  unfold dispatch. cbn [in_event in_args in_sender].
  rewrite handler_of_power. by destruct args as [|data' [|]].
Qed.

(** C7.  A key that is in the registry at some point of a run is still in
    it after any further events: the set of registry keys only grows. *)
Theorem registry_keys_persist evs1 evs2 g k :
  is_Some (users (serve evs1 g).1 !! k) →
  is_Some (users (serve (evs1 ++ evs2) g).1 !! k) ∧
  dom (users (serve evs1 g).1) ⊆ dom (users (serve (evs1 ++ evs2) g).1).
Proof.
  assert (dom (users (serve evs1 g).1) ⊆ dom (users (serve (evs1 ++ evs2) g).1))
    as Hsub.
  { rewrite serve_app. simpl. apply serve_users_dom. }
  intros Hk. split; [|done].
  apply elem_of_dom, Hsub, elem_of_dom, Hk.
Qed.

Lemma registry_keys_persist_witness :
  is_Some (users (serve [join_event "A" han] module_init).1 !! KStr "s1") ∧
  is_Some (users (serve ([join_event "A" han] ++
                         [power_event "A" PNone; join_event "B" chewie;
                          Inbound "A" "join" [PList []]])
                    module_init).1 !! KStr "s1").
Proof.
  assert (is_Some (users (serve [join_event "A" han] module_init).1 !! KStr "s1"))
    as H1 by (by eexists).
  split; [exact H1|].
  exact (proj1 (registry_keys_persist [join_event "A" han] _ module_init _ H1)).
Defined.

(** C8.  No run of the event loop changes [VEHICLES], and no run depends
    on it: with any other value bound to [VEHICLES] the loop records the
    same outcomes and emissions and ends with the same registry. *)
Theorem vehicles_never_touched evs g v :
  VEHICLES (serve evs g).1 = VEHICLES g ∧
  (serve evs (with_vehicles v g)).2 = (serve evs g).2 ∧
  users (serve evs (with_vehicles v g)).1 = users (serve evs g).1 ∧
  VEHICLES (serve evs module_init).1 = VEHICLES_literal.
Proof.
  rewrite serve_with_vehicles. repeat split; try done; apply serve_vehicles.
Qed.

(** C9.  On a payload that lacks one of the three keys [handle_join]
    raises [KeyError] having stored nothing and emitted nothing: the
    globals are the ones it started from and there is no [update_users]
    emission.  The key reported is the first absent one in the order in
    which the statement is evaluated: station, name, session_id. *)
Theorem join_missing_key_changes_nothing m g sender :
  lacks_join_key m →
  ∃ k, k ∈ ["station"; "name"; "session_id"] ∧ m !! KStr k = None ∧
       handle_join (PDict m) g = (Raised (KeyError k), g, []) ∧
       dispatch (Inbound sender "join" [PDict m]) g =
         (g, Handled sender (Some (Raised (KeyError k))) []).
Proof.
  intros Hl. unfold dispatch, call. cbn [in_event in_args in_sender].
  rewrite handler_of_join, handle_join_dict.
  destruct (m !! KStr "station") as [st|] eqn:Hst;
    [|exists "station"; split; [set_solver|done]].
  destruct (m !! KStr "name") as [nm|] eqn:Hnm;
    [|exists "name"; split; [set_solver|done]].
  destruct (m !! KStr "session_id") as [sid|] eqn:Hsid;
    [|exists "session_id"; split; [set_solver|done]].
  destruct Hl as [?|[?|?]]; congruence.
Qed.

Lemma join_missing_key_changes_nothing_witness :
  lacks_join_key {[ KStr "station" := PStr "helm"; KStr "name" := PStr "Han" ]} ∧
  ∃ k, handle_join
         (PDict {[ KStr "station" := PStr "helm"; KStr "name" := PStr "Han" ]})
         module_init = (Raised (KeyError k), module_init, []).
Proof.
  assert (lacks_join_key
            {[ KStr "station" := PStr "helm"; KStr "name" := PStr "Han" ]}) as Hl.
  { right; right. reflexivity. }
  split; [exact Hl|].
  destruct (join_missing_key_changes_nothing _ module_init "A" Hl)
    as (k & _ & _ & Hk & _).
  by exists k.
Defined.

(** C10.  For a payload that has the three keys, the record stored under
    the session identifier, which is also the one in the broadcast, is a
    dict with exactly the two keys [station] and [name], bound to the
    payload's values; and the run is the same for any other payload with
    the same three values, whatever further keys either payload has. *)
Theorem join_record_has_two_fields m m' j g :
  carries m j →
  carries m' j →
  handle_join (PDict m') g = handle_join (PDict m) g ∧
  ∃ r reg,
    users (globals_after (handle_join (PDict m) g)) = reg ∧
    sent (handle_join (PDict m) g) = [Emission "update_users" (PDict reg) true] ∧
    reg !! KStr (j_sid j) = Some (PDict r) ∧
    dom r = {[ KStr "station"; KStr "name" ]} ∧
    r !! KStr "station" = Some (j_station j) ∧
    r !! KStr "name" = Some (j_name j).
Proof.
  intros Hm Hm'.
  rewrite (handle_join_carries m j g Hm), (handle_join_carries m' j g Hm').
  split; [done|].
  exists (<[KStr "name" := j_name j]> (<[KStr "station" := j_station j]> ∅)),
         (<[KStr (j_sid j) := record_of j]> (users g)).
  split; [done|split; [done|]].
  split; [by rewrite lookup_insert_eq|split; [|split]].
  - rewrite !dom_insert_L, dom_empty_L. set_solver.
  - rewrite lookup_insert_ne by done. by rewrite lookup_insert_eq.
  - by rewrite lookup_insert_eq.
Qed.

Lemma join_record_has_two_fields_witness :
  carries (payload_map han) han ∧
  carries (<[KStr "admin" := PBool true]> (payload_map han)) han ∧
  handle_join (PDict (<[KStr "admin" := PBool true]> (payload_map han))) module_init =
    handle_join (PDict (payload_map han)) module_init.
Proof.
  assert (carries (payload_map han) han) as Hm by done.
  assert (carries (<[KStr "admin" := PBool true]> (payload_map han)) han) as Hm'
    by done.
  split; [exact Hm|split; [exact Hm'|]].
  exact (proj1 (join_record_has_two_fields _ _ han module_init Hm Hm')).
Defined.

(** * Further properties of the handlers and of the loop *)

(** ** One event, case by case *)

Section cases.
Implicit Types (ev : inbound) (evs : list inbound) (g : globals).

Local Ltac did_nothing :=
  left; eexists; split; [|reflexivity]; discriminate.

(** What one inbound event can do: nothing (no handler, or the handler
    raised); relay a power update; or store one record and broadcast the
    registry. *)
Lemma dispatch_trichotomy ev g :
  (∃ r, r ≠ Some (Returned tt) ∧
        dispatch ev g = (g, Handled (in_sender ev) r [])) ∨
  (in_event ev = "power_update" ∧
   ∃ data, in_args ev = [data] ∧
     dispatch ev g =
       (g, Handled (in_sender ev) (Some (Returned tt))
             [Emission "power_update" data true])) ∨
  (∃ k station name,
     names_key ev k ∧
     dispatch ev g =
       (Globals (<[k := user_record station name]> (users g)) (VEHICLES g),
        Handled (in_sender ev) (Some (Returned tt))
          [Emission "update_users"
             (PDict (<[k := user_record station name]> (users g))) true])).
Proof.
  unfold dispatch.
  destruct (handler_of (in_event ev)) as [h|] eqn:Hh; [|did_nothing].
  destruct (in_args ev) as [|data [|]] eqn:Hargs;
    try (did_nothing).
  apply handler_of_cases in Hh as [[Hname ->]|[Hname ->]].
  - unfold call. destruct data as [| | | | |m]; try (did_nothing).
    rewrite handle_join_dict.
    destruct (m !! KStr "station") as [station|] eqn:Hst; [|did_nothing].
    destruct (m !! KStr "name") as [name|] eqn:Hnm; [|did_nothing].
    destruct (m !! KStr "session_id") as [sid|] eqn:Hsid; [|did_nothing].
    destruct (py_hash sid) as [k|] eqn:Hk; [|did_nothing].
    right; right. exists k, station, name. split; [|done].
    split; [done|]. by exists m, sid.
  - right; left. split; [done|]. by exists data.
Qed.

Lemma names_key_join ev k : names_key ev k → in_event ev = "join".
Proof. by intros [? _]. Qed.

(** The [n]-th record of the log is what the [n]-th event did in the
    globals left by the events before it. *)
Lemma serve_lookup evs g n h :
  (serve evs g).2 !! n = Some h →
  ∃ ev, evs !! n = Some ev ∧
        dispatch ev (serve (take n evs) g).1 =
          ((serve (take (S n) evs) g).1, h).
Proof.
  revert g n. induction evs as [|ev evs IH]; intros g n; [done|].
  rewrite serve_cons. destruct n as [|n]; simpl.
  - intros [= <-]. exists ev. split; [done|].
    by destruct (dispatch ev g) as [g1 h1].
  - intros Hn. destruct (IH _ _ Hn) as (ev' & Hev' & Hd).
    exists ev'. split; [done|].
    destruct (dispatch ev g) as [g1 h1]. simpl in *.
    destruct (serve (take n evs) g1) as [g2 hs2] eqn:E2.
    destruct evs as [|e0 evs0]; [done|]. simpl in *.
    destruct (dispatch e0 g1) as [g3 h3].
    destruct (serve (take n evs0) g3) as [g4 hs4].
    done.
Qed.
End cases.

(** ** How [handle_join] fails *)

(** X1.  A join payload that is not a dict (null, a boolean, a number, a
    string or a list) makes [handle_join] raise [TypeError] at its first
    subscript: nothing is stored and nothing is emitted, also as seen by
    the event loop. *)
Theorem join_non_dict_raises_type_error data g sender :
  (∀ m, data ≠ PDict m) →
  ∃ why,
    handle_join data g = (Raised (TypeError why), g, []) ∧
    dispatch (Inbound sender "join" [data]) g =
      (g, Handled sender (Some (Raised (TypeError why))) []).
Proof.
  intros Hnd. destruct (handle_join_not_dict data g Hnd) as [why Hwhy].
  exists why. split; [done|].
  unfold dispatch, call. cbn [in_event in_args in_sender].
  by rewrite handler_of_join, Hwhy.
Qed.

Lemma join_non_dict_raises_type_error_witness :
  (∀ m, PList [PStr "s1"; PStr "helm"; PStr "Han"] ≠ PDict m) ∧
  ∃ why, handle_join (PList [PStr "s1"; PStr "helm"; PStr "Han"]) module_init =
           (Raised (TypeError why), module_init, []).
Proof.
  assert (∀ m, PList [PStr "s1"; PStr "helm"; PStr "Han"] ≠ PDict m) as Hnd
    by (intros m; discriminate).
  split; [exact Hnd|].
  destruct (join_non_dict_raises_type_error _ module_init "A" Hnd)
    as (why & Hwhy & _).
  by exists why.
Defined.

(** X2.  A payload that has the three keys but whose [session_id] is a
    list or a dict makes [handle_join] raise [TypeError] (unhashable key)
    at the store: the registry is as before and nothing is emitted. *)
Theorem join_unhashable_session_id_changes_nothing m g station name key sender :
  m !! KStr "station" = Some station →
  m !! KStr "name" = Some name →
  m !! KStr "session_id" = Some key →
  ((∃ l, key = PList l) ∨ (∃ d, key = PDict d)) →
  handle_join (PDict m) g = (Raised (TypeError Unhashable), g, []) ∧
  dispatch (Inbound sender "join" [PDict m]) g =
    (g, Handled sender (Some (Raised (TypeError Unhashable))) []).
Proof.
  intros Hst Hnm Hsid Hkey.
  assert (handle_join (PDict m) g = (Raised (TypeError Unhashable), g, [])) as Hrun.
  { apply (handle_join_unhashable m g station name key); try done.
    by destruct Hkey as [[l ->]|[d ->]]. }
  split; [done|].
  unfold dispatch, call. cbn [in_event in_args in_sender].
  by rewrite handler_of_join, Hrun.
Qed.

Lemma join_unhashable_session_id_changes_nothing_witness :
  handle_join
    (PDict (<[KStr "session_id" := PList [PInt 1]]> (payload_map han)))
    module_init = (Raised (TypeError Unhashable), module_init, []).
Proof.
  apply (join_unhashable_session_id_changes_nothing
           (<[KStr "session_id" := PList [PInt 1]]> (payload_map han))
           module_init (PStr "helm") (PStr "Han") (PList [PInt 1]) "A").
  - reflexivity.
  - reflexivity.
  - reflexivity.
  - left. by eexists.
Defined.

(** X3.  When keys are missing, the [KeyError] names the first absent key
    in evaluation order: [station] whatever else is absent, then [name],
    then [session_id]; in each case nothing is stored or emitted. *)
Theorem join_key_errors_in_evaluation_order m g :
  (m !! KStr "station" = None →
   handle_join (PDict m) g = (Raised (KeyError "station"), g, [])) ∧
  (is_Some (m !! KStr "station") →
   m !! KStr "name" = None →
   handle_join (PDict m) g = (Raised (KeyError "name"), g, [])) ∧
  (is_Some (m !! KStr "station") →
   is_Some (m !! KStr "name") →
   m !! KStr "session_id" = None →
   handle_join (PDict m) g = (Raised (KeyError "session_id"), g, [])).
Proof.
  rewrite handle_join_dict. repeat split.
  - by intros ->.
  - by intros [st ->] ->.
  - by intros [st ->] [nm ->] ->.
Qed.

Lemma join_key_errors_in_evaluation_order_witness :
  handle_join (PDict ∅) module_init =
    (Raised (KeyError "station"), module_init, []) ∧
  handle_join (PDict {[ KStr "station" := PStr "helm" ]}) module_init =
    (Raised (KeyError "name"), module_init, []) ∧
  handle_join
    (PDict {[ KStr "station" := PStr "helm"; KStr "name" := PStr "Han" ]})
    module_init = (Raised (KeyError "session_id"), module_init, []).
Proof.
  split; [|split].
  - apply (join_key_errors_in_evaluation_order ∅ module_init). reflexivity.
  - apply (join_key_errors_in_evaluation_order
             {[ KStr "station" := PStr "helm" ]} module_init).
    + by eexists.
    + reflexivity.
  - apply (join_key_errors_in_evaluation_order
             {[ KStr "station" := PStr "helm"; KStr "name" := PStr "Han" ]}
             module_init).
    + by eexists.
    + by eexists.
    + reflexivity.
Defined.

(** ** Invariants of a run *)

Section run.
Implicit Types (ev : inbound) (evs : list inbound) (g : globals).

Lemma dispatch_frame ev g k :
  ¬ names_key ev k → users (dispatch ev g).1 !! k = users g !! k.
Proof.
  intros Hk.
  destruct (dispatch_trichotomy ev g)
    as [(r & _ & ->)|[(_ & data & _ & ->)|(k' & st & nm & Hk' & ->)]];
    try done.
  simpl. apply lookup_insert_ne. by intros ->.
Qed.

Lemma dispatch_size ev g :
  size (users g) ≤ size (users (dispatch ev g).1) ∧
  size (users (dispatch ev g).1) ≤
    size (users g) + length (filter (λ ev, in_event ev = "join") [ev]).
Proof.
  destruct (dispatch_trichotomy ev g)
    as [(r & _ & ->)|[(_ & data & _ & ->)|(k & st & nm & Hk & ->)]];
    simpl; try lia.
  rewrite filter_cons, filter_nil, decide_True by by eapply names_key_join.
  rewrite map_size_insert. destruct (users g !! k); simpl; lia.
Qed.


Lemma dispatch_power_globals ev g :
  in_event ev = "power_update" → (dispatch ev g).1 = g.
Proof.
  intros Hname.
  destruct (dispatch_trichotomy ev g)
    as [(r & _ & ->)|[(_ & data & _ & ->)|(k & st & nm & Hk & _)]];
    try done.
  apply names_key_join in Hk. congruence.
Qed.

Lemma dispatch_power_sent ev g :
  in_event ev = "power_update" →
  filter (λ e, em_event e = "update_users") (h_sent (dispatch ev g).2) = [].
Proof.
  intros Hname.
  destruct (dispatch_trichotomy ev g)
    as [(r & _ & ->)|[(_ & data & _ & ->)|(k & st & nm & Hk & _)]];
    try done.
  apply names_key_join in Hk. congruence.
Qed.
End run.

(** X5.  A registry entry changes only through a join that names its key:
    if no event of a run is a join whose payload's [session_id] is that
    key, the run leaves the entry (or its absence) as it was. *)
Theorem entry_changes_only_by_its_join evs g k :
  (∀ ev, ev ∈ evs → ¬ names_key ev k) →
  users (serve evs g).1 !! k = users g !! k.
Proof.
  revert g. induction evs as [|ev evs IH]; intros g Hevs; [done|].
  rewrite serve_cons. simpl. rewrite IH.
  - apply dispatch_frame, Hevs. by left.
  - intros ev' Hev'. apply Hevs. by right.
Qed.

Lemma entry_changes_only_by_its_join_witness :
  let evs := [join_event "B" chewie; power_event "A" PNone;
              Inbound "A" "join" [PDict ∅]] in
  (∀ ev, ev ∈ evs → ¬ names_key ev (KStr "s1")) ∧
  users (serve evs (serve [join_event "A" han] module_init).1).1 !! KStr "s1" =
    Some (record_of han).
Proof.
  intros evs.
  assert (∀ ev, ev ∈ evs → ¬ names_key ev (KStr "s1")) as Hevs.
  { intros ev Hev [Hname (m & sid & Hargs & Hsid & Hk)].
    apply list_elem_of_In in Hev.
    destruct Hev as [<-|[<-|[<-|[]]]]; unfold join_event, payload_of in *;
      simplify_eq/=; vm_compute in Hsid; by simplify_eq/=. }
  split; [exact Hevs|].
  rewrite (entry_changes_only_by_its_join evs _ (KStr "s1") Hevs).
  reflexivity.
Defined.

(** X6.  The registry never shrinks, and it grows by at most one entry
    per [join] event of the run. *)
Theorem registry_grows_by_at_most_one_per_join evs g :
  size (users g) ≤ size (users (serve evs g).1) ∧
  size (users (serve evs g).1) ≤
    size (users g) + length (filter (λ ev, in_event ev = "join") evs).
Proof.
  revert g. induction evs as [|ev evs IH]; intros g; [simpl; lia|].
  rewrite serve_cons. simpl.
  destruct (IH (dispatch ev g).1) as [IH1 IH2].
  destruct (dispatch_size ev g) as [H1 H2].
  rewrite filter_cons in *. rewrite filter_nil in H2.
  case_decide; simpl in *; lia.
Qed.



(** ** What a run emits *)

(** X8.  Every inbound event yields at most one emission, and every
    emission is a broadcast named [update_users] or [power_update]: an
    event whose handler returned yields exactly one, an event whose
    handler raised, or that has no handler, yields none. *)
Theorem each_event_emits_at_most_one_broadcast evs g h :
  h ∈ (serve evs g).2 →
  (h_result h = Some (Returned tt) ∧
   ∃ e, h_sent h = [e] ∧ em_broadcast e = true ∧
        (em_event e = "update_users" ∨ em_event e = "power_update")) ∨
  (h_result h ≠ Some (Returned tt) ∧ h_sent h = []).
Proof.
  intros Hh. apply list_elem_of_lookup in Hh as [n Hn].
  destruct (serve_lookup evs g n h Hn) as (ev & _ & Hd).
  destruct (dispatch_trichotomy ev (serve (take n evs) g).1)
    as [(r & Hr & Hd')|[(_ & data & _ & Hd')|(k & st & nm & _ & Hd')]];
    rewrite Hd' in Hd; injection Hd as _ <-; simpl.
  - by right.
  - left. split; [done|]. eexists. split; [done|]. split; [done|by right].
  - left. split; [done|]. eexists. split; [done|]. split; [done|by left].
Qed.

Lemma each_event_emits_at_most_one_broadcast_witness :
  let evs := [join_event "A" han; Inbound "A" "join" [PDict ∅]] in
  let h := Handled "A" (Some (Raised (KeyError "station"))) [] in
  h ∈ (serve evs module_init).2 ∧ h_sent h = [].
Proof.
  intros evs h.
  assert (h ∈ (serve evs module_init).2) as Hh.
  { apply list_elem_of_In. right. left. reflexivity. }
  split; [exact Hh|].
  destruct (each_event_emits_at_most_one_broadcast evs module_init h Hh)
    as [[Hr _]|[_ Hs]]; [discriminate Hr|exact Hs].
Defined.

(** X9.  In any run, with whatever other events around it, an
    [update_users] emission carries the registry exactly as it is once the
    event that emitted it has been handled, and that event is a join
    naming a key of that registry. *)
Theorem update_users_carries_current_registry evs g n h e :
  (serve evs g).2 !! n = Some h →
  e ∈ h_sent h →
  em_event e = "update_users" →
  em_data e = PDict (users (serve (take (S n) evs) g).1) ∧
  ∃ ev k, evs !! n = Some ev ∧ names_key ev k ∧
          is_Some (users (serve (take (S n) evs) g).1 !! k).
Proof.
  intros Hn He Hname.
  destruct (serve_lookup evs g n h Hn) as (ev & Hev & Hd).
  destruct (dispatch_trichotomy ev (serve (take n evs) g).1)
    as [(r & Hr & Hd')|[(_ & data & _ & Hd')|(k & st & nm & Hk & Hd')]];
    rewrite Hd' in Hd; injection Hd as Hg <-; simpl in He.
  - by apply elem_of_nil in He.
  - apply list_elem_of_singleton in He as ->. done.
  - apply list_elem_of_singleton in He as ->. rewrite <-Hg. simpl.
    split; [done|]. exists ev, k. split; [done|split; [done|]].
    rewrite lookup_insert_eq. by eexists.
Qed.

Lemma update_users_carries_current_registry_witness :
  let evs := [power_event "A" PNone; join_event "A" han;
              Inbound "B" "join" [PNone]; join_event "B" chewie] in
  let e := Emission "update_users"
             (PDict (<[KStr "s2" := record_of chewie]>
                     {[ KStr "s1" := record_of han ]})) true in
  (serve evs module_init).2 !! 3 =
    Some (Handled "B" (Some (Returned tt)) [e]) ∧
  em_data e = PDict (users (serve (take 4 evs) module_init).1).
Proof.
  intros evs e.
  assert ((serve evs module_init).2 !! 3 =
            Some (Handled "B" (Some (Returned tt)) [e])) as Hn by reflexivity.
  split; [exact Hn|].
  apply (update_users_carries_current_registry evs module_init 3 _ e Hn).
  - apply list_elem_of_In. left. reflexivity.
  - reflexivity.
Defined.

(** ** How events compose *)

(** X10.  Power updates leave no trace in the registry: dropping every
    [power_update] event from a run changes neither the globals the run
    ends in nor the sequence of [update_users] emissions it makes. *)
Theorem power_updates_leave_no_trace evs g :
  (serve (filter (λ ev, in_event ev ≠ "power_update") evs) g).1 =
    (serve evs g).1 ∧
  filter (λ e, em_event e = "update_users")
    (all_sent (serve (filter (λ ev, in_event ev ≠ "power_update") evs) g).2) =
  filter (λ e, em_event e = "update_users") (all_sent (serve evs g).2).
Proof.
  revert g. induction evs as [|ev evs IH]; intros g; [done|].
  rewrite filter_cons. case_decide as Hname.
  - rewrite !serve_cons. simpl. destruct (IH (dispatch ev g).1) as [IH1 IH2].
    split; [done|].
    unfold all_sent in *. rewrite !fmap_cons. simpl.
    by rewrite !filter_app, IH2.
  - rewrite (serve_cons ev evs g). simpl.
    rewrite (dispatch_power_globals ev g Hname).
    destruct (IH g) as [IH1 IH2]. split; [done|].
    rewrite IH2. unfold all_sent. rewrite fmap_cons. simpl.
    by rewrite filter_app, (dispatch_power_sent ev g Hname).
Qed.

(** X11.  Joins of different sessions commute: handled in either order
    they leave the same globals. *)
Theorem joins_of_distinct_sessions_commute ev1 ev2 j1 j2 g :
  is_join ev1 j1 →
  is_join ev2 j2 →
  j_sid j1 ≠ j_sid j2 →
  (serve [ev1; ev2] g).1 = (serve [ev2; ev1] g).1.
Proof.
  intros H1 H2 Hne.
  rewrite (serve_joins_globals [ev1; ev2] [j1; j2] g)
    by (constructor; [done|constructor; [done|constructor]]).
  rewrite (serve_joins_globals [ev2; ev1] [j2; j1] g)
    by (constructor; [done|constructor; [done|constructor]]).
  unfold store_all. simpl. f_equal.
  apply insert_insert_ne. congruence.
Qed.

Lemma joins_of_distinct_sessions_commute_witness :
  (serve [join_event "A" han; join_event "B" chewie] module_init).1 =
    (serve [join_event "B" chewie; join_event "A" han] module_init).1.
Proof.
  assert (∀ sender j, is_join (join_event sender j) j) as Hjoin.
  { intros sender j. split; [done|]. exists (payload_map j). by split. }
  apply (joins_of_distinct_sessions_commute _ _ han chewie module_init
           (Hjoin "A" han) (Hjoin "B" chewie)).
  discriminate.
Defined.

(** ** The registry after an arbitrary run *)

Section replay.
Implicit Types (ev : inbound) (evs : list inbound) (g : globals).

Lemma dispatch_stores ev g :
  (dispatch ev g).1 =
    match stores ev with
    | Some (k, v) => Globals (<[k := v]> (users g)) (VEHICLES g)
    | None => g
    end.
Proof.
  unfold dispatch, handler_of, stores.
  destruct (decide (in_event ev = "join")) as [Hj|Hj].
  - destruct (in_args ev) as [|data [|]]; try done;
      destruct data as [| | | | |m]; try done.
    unfold call. rewrite handle_join_dict.
    destruct (m !! KStr "station") as [station|]; [|done].
    destruct (m !! KStr "name") as [name|]; [|done].
    destruct (m !! KStr "session_id") as [sid|]; [|done].
    simpl. by destruct (py_hash sid).
  - destruct (decide (in_event ev = "power_update")); [|done].
    by destruct (in_args ev) as [|data [|]].
Qed.

Lemma serve_snoc_globals evs ev g :
  (serve (evs ++ [ev]) g).1 = (dispatch ev (serve evs g).1).1.
Proof. rewrite serve_app. simpl. by destruct (dispatch ev (serve evs g).1). Qed.
End replay.

(** X12.  Last complete join wins, in any run: the entry under a key is
    the record of the last event of the run that got to store under that
    key, and the entry the run started with if there is none.  Power
    updates, failed joins and unhandled events in between do not matter. *)
Theorem last_complete_join_wins evs g k :
  users (serve evs g).1 !! k =
    match last (filter (λ kv, kv.1 = k) (omap stores evs)) with
    | Some kv => Some kv.2
    | None => users g !! k
    end.
Proof.
  induction evs as [|ev evs IH] using rev_ind; [done|].
  rewrite serve_snoc_globals, dispatch_stores, omap_app, filter_app. simpl.
  destruct (stores ev) as [[k' v]|]; simpl.
  - rewrite filter_cons, filter_nil. simpl.
    destruct (decide (k' = k)) as [->|Hne].
    + by rewrite last_snoc, lookup_insert_eq.
    + rewrite app_nil_r, lookup_insert_ne by done. apply IH.
  - rewrite filter_nil, app_nil_r. apply IH.
Qed.
